(** * scoped_ptr and scoped_array (src/base/scoped_ptr.h)

    A shallow embedding of the two exclusive-ownership wrappers of
    xforest.  A raw pointer [C*] is an [option positive]: [None] is
    [nullptr] and [Some a] is the address [a].  The observable effect of
    the wrappers is the sequence of calls to the deallocation primitives,
    recorded as a log of [event]s: [Dealloc Single a] is [delete a] and
    [Dealloc Array a] is [delete[] a].  The wrappers never allocate. *)

From stdpp Require Import base gmap list.

(* ------------------------------------------------------------------ *)
(** ** Pointers, wrappers and the deallocation log *)

Abbreviation ptr := (option positive).

(** Which class a wrapper is: [scoped_ptr] deletes with [delete],
    [scoped_array] with [delete[]]. *)
Inductive kind := Single | Array.

#[global] Instance kind_eq_dec : EqDecision kind.
Proof. solve_decision. Defined.

Inductive event := Dealloc (k : kind) (a : positive).

#[global] Instance event_eq_dec : EqDecision event.
Proof. solve_decision. Defined.

(** The single field [ptr_] (resp. [array_]) of the object, together with
    the class of the object. *)
Record wrapper := mk_wrapper { wkind : kind; ptr_ : ptr }.

(** [delete p] / [delete[] p]: on [nullptr] the C++ runtime does nothing
    ("We don't need to test ptr_ == nullptr because C++ does that for us"). *)
Definition delete_ (k : kind) (p : ptr) : list event :=
  match p with
  | None => []
  | Some a => [Dealloc k a]
  end.

(** Identity comparison of two raw pointers ([p != ptr_]). *)
Definition ptr_eqb (p q : ptr) : bool := bool_decide (p = q).

(* ------------------------------------------------------------------ *)
(** ** The member functions of one object *)

(** [explicit scoped_ptr(C* p = nullptr) : ptr_(p) { }], and the same for
    [scoped_array]. *)
Definition construct (k : kind) (p : ptr) : wrapper := mk_wrapper k p.

(** [~scoped_ptr() { delete ptr_; }] / [~scoped_array() { delete[] array_; }] *)
Definition destruct (w : wrapper) : list event := delete_ (wkind w) (ptr_ w).

(** [void reset(C* p = nullptr) { if (p != ptr_) { delete ptr_; ptr_ = p; } }] *)
Definition reset (w : wrapper) (p : ptr) : wrapper * list event :=
  if negb (ptr_eqb p (ptr_ w))
  then (mk_wrapper (wkind w) p, delete_ (wkind w) (ptr_ w))
  else (w, []).

(** [C* get() const { return ptr_; }] *)
Definition get (w : wrapper) : ptr := ptr_ w.

(** [bool operator==(C* p) const { return ptr_ == p; }] *)
Definition op_eq (w : wrapper) (p : ptr) : bool := ptr_eqb (ptr_ w) p.

(** [bool operator!=(C* p) const { return ptr_ != p; }] *)
Definition op_neq (w : wrapper) (p : ptr) : bool := negb (ptr_eqb (ptr_ w) p).

(** [C* release() { C* retVal = ptr_; ptr_ = nullptr; return retVal; }] *)
Definition release (w : wrapper) : ptr * wrapper :=
  let retVal := ptr_ w in
  (retVal, mk_wrapper (wkind w) None).

(* ------------------------------------------------------------------ *)
(** ** Accessors guarded by [assert] *)

(** The result of an access: a value, the abort raised by a failing
    [assert], or undefined behaviour (a dereference of [nullptr], or an
    element before the start of the block). *)
Inductive outcome (A : Type) :=
| Ok (x : A)
| AssertFail
| Undefined.
Arguments Ok {A} x.
Arguments AssertFail {A}.
Arguments Undefined {A}.

(** [assert(e)] from <assert.h>: when [NDEBUG] is defined the macro
    expands to [((void)0)] and [e] is not evaluated; otherwise a false
    [e] aborts the program.  [ndebug] is the build configuration. *)
Definition assert_ {A} (ndebug : bool) (e : bool) (k : outcome A) : outcome A :=
  if ndebug then k else if e then k else AssertFail.

(** [*p]: the object [p] refers to (identified by its address). *)
Definition load (p : ptr) : outcome positive :=
  match p with
  | None => Undefined
  | Some a => Ok a
  end.

(** [p[i]] for [p] the start of a [new[]] block: the element at offset
    [i] (the block length is not known, so no upper bound appears). *)
Definition elem (p : ptr) (i : Z) : outcome (positive * Z) :=
  match p with
  | None => Undefined
  | Some a => if Z.ltb i 0 then Undefined else Ok (a, i)
  end.

(** [C& operator*() const { assert(ptr_ != nullptr); return *ptr_; }] *)
Definition op_star (ndebug : bool) (w : wrapper) : outcome positive :=
  assert_ ndebug (negb (ptr_eqb (ptr_ w) None)) (load (ptr_ w)).

(** [C* operator->() const { assert(ptr_ != nullptr); return ptr_; }] *)
Definition op_arrow (ndebug : bool) (w : wrapper) : outcome ptr :=
  assert_ ndebug (negb (ptr_eqb (ptr_ w) None)) (Ok (ptr_ w)).

(** [w->m]: the member access goes through the pointer [operator->]
    returns. *)
Definition member_access (ndebug : bool) (w : wrapper) : outcome positive :=
  match op_arrow ndebug w with
  | Ok p => load p
  | AssertFail => AssertFail
  | Undefined => Undefined
  end.

(** [C& operator[](std::ptrdiff_t i) const
      { assert(i >= 0); assert(array_ != nullptr); return array_[i]; }] *)
Definition op_index (ndebug : bool) (w : wrapper) (i : Z) : outcome (positive * Z) :=
  assert_ ndebug (Z.leb 0 i)
    (assert_ ndebug (negb (ptr_eqb (ptr_ w) None)) (elem (ptr_ w) i)).

(* ------------------------------------------------------------------ *)
(** ** A program: live wrapper objects and the operations on them *)

(** The live wrapper objects, by variable.  A variable that is absent has
    not been constructed yet or has been destroyed. *)
Abbreviation store := (gmap nat wrapper).

Inductive op :=
| OConstruct (i : nat) (k : kind) (p : ptr)
| OReset (i : nat) (p : ptr)
| OSwap (i j : nat)
| ORelease (i : nat)
| ODestruct (i : nat).

(** [void swap(scoped_ptr& p2) { C* tmp = ptr_; ptr_ = p2.ptr_; p2.ptr_ = tmp; }]
    with [this] the object [i] and [p2] the object [j].  The writes go
    through the store one after the other, so [i = j] (a self-swap, where
    [p2] aliases [*this]) is modelled as the code runs it.  Both objects
    have the same class ([swap] takes a [scoped_ptr&] of the same [C]). *)
Definition swap (st : store) (i j : nat) : option store :=
  this ← st !! i;
  p2 ← st !! j;
  if decide (wkind this = wkind p2) then
    let tmp := ptr_ this in
    let st1 := <[i := mk_wrapper (wkind this) (ptr_ p2)]> st in
    p2' ← st1 !! j;
    Some (<[j := mk_wrapper (wkind p2') tmp]> st1)
  else None.

(** One operation of a well-formed program: [None] when the program is
    not one (an object used before its construction or after its
    destruction, constructed twice, or swapped with an object of the
    other class). *)
Definition step (st : store) (o : op) : option (store * list event) :=
  match o with
  | OConstruct i k p =>
      match st !! i with
      | None => Some (<[i := construct k p]> st, [])
      | Some _ => None
      end
  | OReset i p =>
      w ← st !! i;
      let '(w', ev) := reset w p in Some (<[i := w']> st, ev)
  | OSwap i j =>
      st' ← swap st i j; Some (st', [])
  | ORelease i =>
      w ← st !! i;
      let '(_, w') := release w in Some (<[i := w']> st, [])
  | ODestruct i =>
      w ← st !! i;
      Some (delete i st, destruct w)
  end.

Fixpoint run (st : store) (log : list event) (ops : list op)
  : option (store * list event) :=
  match ops with
  | [] => Some (st, log)
  | o :: ops' =>
      match step st o with
      | Some (st', ev) => run st' (log ++ ev) ops'
      | None => None
      end
  end.

(** Number of deallocation calls, of either kind, on the address [a]. *)
Definition ev_addr (e : event) : positive := match e with Dealloc _ b => b end.

Definition dealloc_count (a : positive) (log : list event) : nat :=
  length (filter (fun e => ev_addr e = a) log).

(** The caller's side of the contract ("The input parameter must be
    allocated with new"): a pointer handed to a wrapper refers to a live
    allocation that no live wrapper owns, i.e. it is owned by no object
    and has not been deallocated. *)
Definition adoptable (st : store) (log : list event) (p : ptr) : bool :=
  match p with
  | None => true
  | Some a =>
      bool_decide (map_Forall (fun _ w => ptr_ w <> Some a) st)
      && Nat.eqb (dealloc_count a log) 0
  end.

(** An operation respects the contract when every pointer it makes an
    object adopt is adoptable ([reset] with the current pointer adopts
    nothing). *)
Definition adopts_ok (st : store) (log : list event) (o : op) : bool :=
  match o with
  | OConstruct _ _ p => adoptable st log p
  | OReset i p =>
      match st !! i with
      | Some w => ptr_eqb p (ptr_ w) || adoptable st log p
      | None => true
      end
  | _ => true
  end.

Fixpoint contract_ok (st : store) (log : list event) (ops : list op) : bool :=
  match ops with
  | [] => true
  | o :: ops' =>
      adopts_ok st log o &&
      match step st o with
      | Some (st', ev) => contract_ok st' (log ++ ev) ops'
      | None => true
      end
  end.

Definition demo_ops : list op :=
  [OConstruct 0 Single (Some 1%positive); OConstruct 1 Single (Some 2%positive);
   OReset 0 (Some 3%positive); OSwap 0 1; ORelease 1;
   OReset 1 (Some 3%positive); OReset 1 (Some 3%positive);
   OConstruct 2 Array (Some 4%positive); ODestruct 0].

(** The addresses a pointer argument hands over ([nullptr] hands over none). *)
Definition ptr_list (p : ptr) : list positive :=
  match p with
  | None => []
  | Some a => [a]
  end.

(** The addresses passed to a constructor or to [reset] by an operation. *)
Definition op_ptrs (o : op) : list positive :=
  match o with
  | OConstruct _ _ p | OReset _ p => ptr_list p
  | _ => []
  end.

Definition is_release (o : op) : bool :=
  match o with
  | ORelease _ => true
  | _ => false
  end.

(** The allocation-kind discipline of the caller ("The input parameter must
    be allocated with new" for [scoped_ptr], "with new []" for
    [scoped_array]): [kind_of a] is how the address [a] was allocated, and
    an operation respects it when every pointer it passes goes to an
    object of the matching class. *)
Definition kind_ok (kind_of : positive -> kind) (st : store) (o : op) : bool :=
  match o with
  | OConstruct _ k (Some a) => bool_decide (kind_of a = k)
  | OReset i (Some a) =>
      match st !! i with
      | Some w => bool_decide (kind_of a = wkind w)
      | None => true
      end
  | _ => true
  end.

Fixpoint kinds_respected (kind_of : positive -> kind) (st : store) (ops : list op)
  : bool :=
  match ops with
  | [] => true
  | o :: ops' =>
      kind_ok kind_of st o &&
      match step st o with
      | Some (st', _) => kinds_respected kind_of st' ops'
      | None => true
      end
  end.

(* ------------------------------------------------------------------ *)
(** ** Facts about the model *)

Example demo_run_log :
  option_map snd (run ∅ [] demo_ops) = Some [Dealloc Single 1; Dealloc Single 2].
Proof. vm_compute. reflexivity. Qed.

Lemma ptr_eqb_true (p q : ptr) : ptr_eqb p q = true <-> p = q.
Proof. unfold ptr_eqb. apply bool_decide_eq_true. Qed.

Lemma ptr_eqb_false (p q : ptr) : ptr_eqb p q = false <-> p <> q.
Proof. unfold ptr_eqb. apply bool_decide_eq_false. Qed.

Lemma dealloc_count_app (a : positive) (l1 l2 : list event) :
  dealloc_count a (l1 ++ l2) = dealloc_count a l1 + dealloc_count a l2.
Proof. unfold dealloc_count. rewrite filter_app, length_app. reflexivity. Qed.

Lemma dealloc_count_delete (a : positive) (k : kind) (p : ptr) :
  dealloc_count a (delete_ k p) = if decide (p = Some a) then 1 else 0.
Proof.
  destruct p as [b|]; unfold dealloc_count; simpl.
  - rewrite filter_cons. simpl.
    repeat case_decide; simplify_eq; done.
  - reflexivity.
Qed.

(** Object [x] of the store currently owns the address [a]. *)
Definition holds (st : store) (x : nat) (a : positive) : Prop :=
  exists w, st !! x = Some w /\ ptr_ w = Some a.

Lemma holds_insert (st : store) (i x : nat) (w : wrapper) (a : positive) :
  holds (<[i := w]> st) x a <->
  (x = i /\ ptr_ w = Some a) \/ (x <> i /\ holds st x a).
Proof.
  unfold holds. destruct (decide (x = i)) as [->|Hne].
  - rewrite lookup_insert_eq. naive_solver.
  - rewrite lookup_insert_ne by congruence. naive_solver.
Qed.

Lemma holds_delete (st : store) (i x : nat) (a : positive) :
  holds (delete i st) x a <-> x <> i /\ holds st x a.
Proof.
  unfold holds. destruct (decide (x = i)) as [->|Hne].
  - rewrite lookup_delete_eq. naive_solver.
  - rewrite lookup_delete_ne by congruence. naive_solver.
Qed.

Lemma holds_at (st : store) (i : nat) (w : wrapper) (a : positive) :
  st !! i = Some w -> (holds st i a <-> ptr_ w = Some a).
Proof. intros Hi. unfold holds. rewrite Hi. naive_solver. Qed.

Lemma adoptable_some (st : store) (log : list event) (a : positive) :
  adoptable st log (Some a) = true ->
  (forall x, ~ holds st x a) /\ dealloc_count a log = 0.
Proof.
  simpl. intros [Hf Hc]%andb_prop. apply bool_decide_eq_true in Hf.
  apply Nat.eqb_eq in Hc. split; [|exact Hc].
  intros x [w [Hx Hw]]. exact (map_Forall_lookup_1 _ _ _ _ Hf Hx Hw).
Qed.

(** The ownership invariant of a program that respects the contract:
    no two objects own the same address, an owned address has not been
    deallocated, and no address has been deallocated twice. *)
Definition inv (st : store) (log : list event) : Prop :=
  (forall x y a, holds st x a -> holds st y a -> x = y) /\
  (forall x a, holds st x a -> dealloc_count a log = 0) /\
  (forall a, dealloc_count a log <= 1).

Lemma inv_empty : inv ∅ [].
Proof.
  split; [|split].
  - intros x y a [w [Hx _]]. rewrite lookup_empty in Hx. discriminate.
  - intros x a [w [Hx _]]. rewrite lookup_empty in Hx. discriminate.
  - intros a. unfold dealloc_count. simpl. lia.
Qed.

(** Object [i] gives up the pointer [old] (deleting it) and adopts [p]. *)
Lemma inv_adopt (st : store) (log : list event) (i : nat) (k k' : kind)
    (p old : ptr) :
  inv st log ->
  (forall a, holds st i a <-> old = Some a) ->
  adoptable st log p = true ->
  inv (<[i := mk_wrapper k p]> st) (log ++ delete_ k' old).
Proof.
  intros [I1 [I2 I3]] Hold Hp.
  assert (Hfresh : forall a, p = Some a ->
            (forall x, ~ holds st x a) /\ dealloc_count a log = 0).
  { intros a ->. exact (adoptable_some _ _ _ Hp). }
  split; [|split].
  - intros x y a Hx Hy. rewrite holds_insert in Hx, Hy. simpl in Hx, Hy.
    destruct Hx as [[-> Hx]|[Hx Hx']]; destruct Hy as [[-> Hy]|[Hy Hy']];
      try reflexivity.
    + exfalso. exact (proj1 (Hfresh a Hx) y Hy').
    + exfalso. exact (proj1 (Hfresh a Hy) x Hx').
    + exact (I1 x y a Hx' Hy').
  - intros x a Hx. rewrite holds_insert in Hx. simpl in Hx.
    rewrite dealloc_count_app, dealloc_count_delete.
    destruct Hx as [[-> Hx]|[Hx Hx']].
    + destruct (Hfresh a Hx) as [Hn Hc]. rewrite Hc.
      destruct (decide (old = Some a)) as [Ho|]; [|reflexivity].
      exfalso. apply (Hn i), Hold, Ho.
    + rewrite (I2 x a Hx').
      destruct (decide (old = Some a)) as [Ho|]; [|reflexivity].
      exfalso. apply Hx, (I1 x i a Hx'), Hold, Ho.
  - intros a. rewrite dealloc_count_app, dealloc_count_delete.
    destruct (decide (old = Some a)) as [Ho|].
    + rewrite (I2 i a (proj2 (Hold a) Ho)). lia.
    + specialize (I3 a). lia.
Qed.

(** Object [i], owning [old], is destroyed (deleting [old]). *)
Lemma inv_drop (st : store) (log : list event) (i : nat) (k : kind) (old : ptr) :
  inv st log ->
  (forall a, holds st i a <-> old = Some a) ->
  inv (delete i st) (log ++ delete_ k old).
Proof.
  intros [I1 [I2 I3]] Hold. split; [|split].
  - intros x y a Hx Hy. rewrite holds_delete in Hx, Hy.
    exact (I1 x y a (proj2 Hx) (proj2 Hy)).
  - intros x a Hx. rewrite holds_delete in Hx. destruct Hx as [Hx Hx'].
    rewrite dealloc_count_app, dealloc_count_delete, (I2 x a Hx').
    destruct (decide (old = Some a)) as [Ho|]; [|reflexivity].
    exfalso. apply Hx, (I1 x i a Hx'), Hold, Ho.
  - intros a. rewrite dealloc_count_app, dealloc_count_delete.
    destruct (decide (old = Some a)) as [Ho|].
    + rewrite (I2 i a (proj2 (Hold a) Ho)). lia.
    + specialize (I3 a). lia.
Qed.

(** The owned addresses are moved between objects by an injective
    renaming, and nothing is deallocated. *)
Lemma inv_rename (st st' : store) (log : list event) (f : nat -> nat) :
  inv st log ->
  (forall x y, f x = f y -> x = y) ->
  (forall x a, holds st' x a -> holds st (f x) a) ->
  inv st' log.
Proof.
  intros [I1 [I2 I3]] Hf Hmv. split; [|split].
  - intros x y a Hx Hy. apply Hf. exact (I1 _ _ a (Hmv _ _ Hx) (Hmv _ _ Hy)).
  - intros x a Hx. exact (I2 _ a (Hmv _ _ Hx)).
  - exact I3.
Qed.

Lemma wrapper_eta (w : wrapper) : mk_wrapper (wkind w) (ptr_ w) = w.
Proof. destruct w. reflexivity. Qed.

(** What [swap] computes, once the aliasing case is told apart. *)
Lemma swap_eq (st : store) (i j : nat) (wi wj : wrapper) :
  st !! i = Some wi -> st !! j = Some wj -> wkind wi = wkind wj ->
  swap st i j =
    Some (if decide (i = j) then st
          else <[j := mk_wrapper (wkind wj) (ptr_ wi)]>
                 (<[i := mk_wrapper (wkind wi) (ptr_ wj)]> st)).
Proof.
  intros Hi Hj Hk. unfold swap. rewrite Hi, Hj. simpl.
  rewrite decide_True by exact Hk.
  destruct (decide (i = j)) as [<-|Hne].
  - rewrite Hi in Hj. injection Hj as <-.
    rewrite lookup_insert_eq. simpl. f_equal.
    rewrite insert_insert_eq, wrapper_eta. apply insert_id. exact Hi.
  - rewrite lookup_insert_ne by exact Hne. rewrite Hj. reflexivity.
Qed.

Lemma swap_some (st st' : store) (i j : nat) :
  swap st i j = Some st' ->
  exists wi wj, st !! i = Some wi /\ st !! j = Some wj /\ wkind wi = wkind wj.
Proof.
  unfold swap. destruct (st !! i) as [wi|]; [|discriminate].
  destruct (st !! j) as [wj|]; [|discriminate]. simpl.
  destruct (decide (wkind wi = wkind wj)); [|discriminate].
  intros _. eauto.
Qed.

(** The transposition of [i] and [j]. *)
Definition transpose (i j x : nat) : nat :=
  if decide (x = i) then j else if decide (x = j) then i else x.

Lemma transpose_inj (i j : nat) (x y : nat) :
  transpose i j x = transpose i j y -> x = y.
Proof. unfold transpose. repeat case_decide; congruence. Qed.

Lemma step_inv (st st' : store) (log ev : list event) (o : op) :
  inv st log -> adopts_ok st log o = true -> step st o = Some (st', ev) ->
  inv st' (log ++ ev).
Proof.
  intros Hinv Hok Hstep. destruct o as [i k p|i p|i j|i|i]; simpl in Hok, Hstep.
  - (* construct *)
    destruct (st !! i) as [w|] eqn:Hi; [discriminate|].
    injection Hstep as <- <-.
    replace (log ++ []) with (log ++ delete_ k None) by reflexivity.
    apply inv_adopt; [exact Hinv| |exact Hok].
    intros a. split; [intros [w [Hw _]]; congruence|discriminate].
  - (* reset *)
    destruct (st !! i) as [w|] eqn:Hi; [|discriminate]. simpl in Hstep.
    unfold reset in Hstep. destruct (ptr_eqb p (ptr_ w)) eqn:Heq; simpl in Hstep.
    + injection Hstep as <- <-. rewrite insert_id by exact Hi.
      rewrite app_nil_r. exact Hinv.
    + injection Hstep as <- <-. simpl in Hok.
      apply inv_adopt; [exact Hinv| |exact Hok].
      intros a. apply holds_at, Hi.
  - (* swap *)
    destruct (swap st i j) as [s|] eqn:Hs; [|discriminate]. simpl in Hstep.
    injection Hstep as <- <-. rewrite app_nil_r.
    destruct (swap_some _ _ _ _ Hs) as [wi [wj [Hi [Hj Hk]]]].
    rewrite (swap_eq _ _ _ _ _ Hi Hj Hk) in Hs. injection Hs as <-.
    destruct (decide (i = j)) as [<-|Hne]; [exact Hinv|].
    apply (inv_rename st _ log (transpose i j)); [exact Hinv|apply transpose_inj|].
    intros x a Hx. rewrite !holds_insert in Hx. simpl in Hx.
    unfold transpose. unfold holds.
    destruct Hx as [[-> Hx]|[Hxj [[-> Hx]|[Hxi Hx]]]].
    + rewrite decide_False by congruence. rewrite decide_True by reflexivity. eauto.
    + rewrite decide_True by reflexivity. eauto.
    + rewrite !decide_False by assumption. exact Hx.
  - (* release *)
    destruct (st !! i) as [w|] eqn:Hi; [|discriminate]. simpl in Hstep.
    injection Hstep as <- <-. rewrite app_nil_r.
    apply (inv_rename st _ log id); [exact Hinv|auto|].
    intros x a Hx. rewrite holds_insert in Hx. simpl in Hx.
    destruct Hx as [[_ Hx]|[_ Hx]]; [discriminate|exact Hx].
  - (* destruct *)
    destruct (st !! i) as [w|] eqn:Hi; [|discriminate]. simpl in Hstep.
    injection Hstep as <- <-. apply inv_drop; [exact Hinv|].
    intros a. apply holds_at, Hi.
Qed.

Lemma run_inv (ops : list op) (st st' : store) (log log' : list event) :
  inv st log -> contract_ok st log ops = true ->
  run st log ops = Some (st', log') -> inv st' log'.
Proof.
  revert st log. induction ops as [|o ops IH]; intros st log Hinv Hok Hrun; simpl in *.
  - injection Hrun as <- <-. exact Hinv.
  - apply andb_prop in Hok. destruct Hok as [Ho Hrest].
    destruct (step st o) as [[s ev]|] eqn:Hs; [|discriminate].
    exact (IH s (log ++ ev) (step_inv _ _ _ _ _ Hinv Ho Hs) Hrest Hrun).
Qed.

(* ------------------------------------------------------------------ *)
(** ** The specification *)

(** C1: over any program that respects the ownership contract (each
    adopted pointer is a live allocation that no object owns), every
    address is passed to a deallocation primitive at most once, whatever
    sequence of construct, reset, swap, release and destroy was run;
    destroying an object that owns nothing deallocates nothing, and
    destroying an object that owns [a] deallocates [a] with one call,
    which makes it exactly one call on [a] over the whole run. *)
Theorem dealloc_at_most_once (ops : list op) (st : store) (log : list event) :
  contract_ok ∅ [] ops = true ->
  run ∅ [] ops = Some (st, log) ->
  (forall a, dealloc_count a log <= 1) /\
  (forall i w, st !! i = Some w -> ptr_ w = None ->
     step st (ODestruct i) = Some (delete i st, [])) /\
  (forall i w a, st !! i = Some w -> ptr_ w = Some a ->
     step st (ODestruct i) = Some (delete i st, [Dealloc (wkind w) a]) /\
     dealloc_count a (log ++ [Dealloc (wkind w) a]) = 1).
Proof.
  intros Hok Hrun.
  destruct (run_inv _ _ _ _ _ inv_empty Hok Hrun) as [I1 [I2 I3]].
  split; [exact I3|split].
  - intros i w Hi Hw. simpl. rewrite Hi. simpl.
    unfold destruct. rewrite Hw. reflexivity.
  - intros i w a Hi Hw. split.
    + simpl. rewrite Hi. simpl. unfold destruct. rewrite Hw. reflexivity.
    + rewrite dealloc_count_app, (I2 i a (proj2 (holds_at _ _ _ _ Hi) Hw)).
      unfold dealloc_count. simpl. rewrite filter_cons_True by reflexivity.
      reflexivity.
Qed.

Definition demo_store : store :=
  <[1 := mk_wrapper Single (Some 3%positive)]>
    {[2 := mk_wrapper Array (Some 4%positive)]}.

Definition demo_log : list event := [Dealloc Single 1; Dealloc Single 2].

Lemma dealloc_at_most_once_witness :
  contract_ok ∅ [] demo_ops = true /\
  run ∅ [] demo_ops = Some (demo_store, demo_log) /\
  dealloc_count 4 (demo_log ++ [Dealloc Array 4]) = 1.
Proof.
  assert (Hok : contract_ok ∅ [] demo_ops = true) by (vm_compute; reflexivity).
  assert (Hrun : run ∅ [] demo_ops = Some (demo_store, demo_log))
    by (vm_compute; reflexivity).
  split; [exact Hok|split; [exact Hrun|]].
  refine (proj2 (proj2 (proj2 (dealloc_at_most_once demo_ops demo_store demo_log
            Hok Hrun)) 2 (mk_wrapper Array (Some 4%positive)) 4%positive _ _)).
  - vm_compute. reflexivity.
  - reflexivity.
Defined.

(** C2: [reset(p2)] with [p2] different from the owned pointer leaves
    [get() == p2] and deallocates the old pointer with exactly one call
    (of the wrapper's own kind), or makes no call when it was [nullptr]. *)
Theorem reset_other (w : wrapper) (p2 : ptr) :
  p2 <> get w ->
  get (fst (reset w p2)) = p2 /\
  snd (reset w p2) =
    match get w with
    | None => []
    | Some a => [Dealloc (wkind w) a]
    end.
Proof.
  intros Hne. unfold reset. apply ptr_eqb_false in Hne. unfold get in *.
  rewrite Hne. simpl. split; [reflexivity|].
  destruct (ptr_ w); reflexivity.
Qed.

Lemma reset_other_witness :
  Some 2%positive <> get (mk_wrapper Single (Some 1%positive)) /\
  get (fst (reset (mk_wrapper Single (Some 1%positive)) (Some 2%positive))) = Some 2%positive /\
  snd (reset (mk_wrapper Single (Some 1%positive)) (Some 2%positive)) = [Dealloc Single 1].
Proof.
  assert (H : Some 2%positive <> get (mk_wrapper Single (Some 1%positive)))
    by (simpl; congruence).
  split; [exact H|].
  exact (reset_other (mk_wrapper Single (Some 1%positive)) (Some 2%positive) H).
Defined.

(** C3: [reset(get())] deallocates nothing and leaves the object as it
    was, also when it owns [nullptr]. *)
Theorem reset_self (w : wrapper) :
  reset w (get w) = (w, []).
Proof.
  unfold reset, get. rewrite (proj2 (ptr_eqb_true _ _) eq_refl). reflexivity.
Qed.

(** C4: [release()] returns the previous [get()], leaves [get() == nullptr],
    deallocates nothing, and destroying the object afterwards
    deallocates nothing either. *)
Theorem release_spec (w : wrapper) (st : store) (i : nat) :
  fst (release w) = get w /\
  get (snd (release w)) = None /\
  step (<[i := w]> st) (ORelease i) = Some (<[i := snd (release w)]> st, []) /\
  destruct (snd (release w)) = [] /\
  step (<[i := snd (release w)]> st) (ODestruct i) = Some (delete i st, []).
Proof.
  split; [reflexivity|split; [reflexivity|split; [|split; [reflexivity|]]]].
  - simpl. rewrite lookup_insert_eq. simpl. rewrite insert_insert_eq. reflexivity.
  - simpl. rewrite lookup_insert_eq. simpl. rewrite delete_insert_eq. reflexivity.
Qed.

(** C5, as stated: the checks are [assert]s, so in a build with [NDEBUG]
    defined dereferencing an empty [scoped_ptr] is not stopped by any
    check: it proceeds to the undefined dereference of [nullptr]. *)
Lemma deref_empty_ndebug_unchecked :
  op_star true (construct Single None) = Undefined /\
  op_star true (construct Single None) <> AssertFail.
Proof. split; [reflexivity|discriminate]. Qed.

(** C5, amended: with assertions enabled ([NDEBUG] not defined),
    [operator*] and member access abort exactly when the [scoped_ptr]
    owns nothing, and [operator[]] aborts exactly when the index is
    negative or the [scoped_array] owns nothing; with [NDEBUG] defined
    no access ever aborts, the check is compiled out and the access
    proceeds as the unchecked expression. *)
Theorem access_checks_assert (w : wrapper) (i : Z) :
  (op_star false w = AssertFail <-> get w = None) /\
  (member_access false w = AssertFail <-> get w = None) /\
  (op_index false w i = AssertFail <-> (i < 0)%Z \/ get w = None) /\
  op_star true w = load (get w) /\
  member_access true w = load (get w) /\
  op_index true w i = elem (get w) i /\
  op_star true w <> AssertFail /\
  member_access true w <> AssertFail /\
  op_index true w i <> AssertFail.
Proof.
  unfold op_star, member_access, op_arrow, op_index, assert_, get, load, elem, ptr_eqb.
  destruct (ptr_ w) as [a|]; simpl; destruct (Z.leb_spec 0 i);
    destruct (Z.ltb_spec i 0); try lia;
    repeat split; intros; try discriminate; try lia; intuition (try discriminate; try lia).
Qed.

(** C6: a [scoped_array] deallocates with [delete[]] only: going out of
    scope while it owns [a] makes one [delete[]] call on [a] and no
    [delete] call, and [reset] and the destructor never call [delete]. *)
Theorem scoped_array_delete_array (a : positive) (p q : ptr) (st : store) (i : nat) :
  destruct (construct Array (Some a)) = [Dealloc Array a] /\
  step (<[i := construct Array (Some a)]> st) (ODestruct i)
    = Some (delete i st, [Dealloc Array a]) /\
  Forall (fun e => exists b, e = Dealloc Array b) (destruct (construct Array p)) /\
  Forall (fun e => exists b, e = Dealloc Array b) (snd (reset (construct Array p) q)).
Proof.
  split; [reflexivity|split].
  - simpl. rewrite lookup_insert_eq. simpl. rewrite delete_insert_eq. reflexivity.
  - unfold destruct, reset, construct, delete_. simpl.
    destruct p as [b|]; [split|split].
    + constructor; [eauto|constructor].
    + destruct (ptr_eqb q (Some b)); simpl; repeat constructor; eauto.
    + constructor.
    + destruct (ptr_eqb q None); simpl; constructor.
Qed.

(** C7: swapping two live objects of the same class exchanges their
    pointers and makes no deallocation call (and no allocation: the
    wrappers have none). *)
Theorem swap_exchanges (st : store) (i j : nat) (wi wj : wrapper) :
  st !! i = Some wi -> st !! j = Some wj -> wkind wi = wkind wj ->
  exists st',
    step st (OSwap i j) = Some (st', []) /\
    option_map get (st' !! i) = Some (get wj) /\
    option_map get (st' !! j) = Some (get wi).
Proof.
  intros Hi Hj Hk. simpl. rewrite (swap_eq _ _ _ _ _ Hi Hj Hk). simpl.
  eexists. split; [reflexivity|].
  destruct (decide (i = j)) as [<-|Hne].
  - rewrite Hi in Hj. injection Hj as <-. rewrite Hi. split; reflexivity.
  - rewrite lookup_insert_ne by congruence. rewrite !lookup_insert_eq.
    split; reflexivity.
Qed.

Lemma swap_exchanges_witness :
  exists st',
    step (<[0 := mk_wrapper Single (Some 1%positive)]>
            {[1 := mk_wrapper Single (Some 2%positive)]}) (OSwap 0 1) = Some (st', []) /\
    option_map get (st' !! 0) = Some (Some 2%positive) /\
    option_map get (st' !! 1) = Some (Some 1%positive).
Proof.
  apply (swap_exchanges _ 0 1 (mk_wrapper Single (Some 1%positive))
           (mk_wrapper Single (Some 2%positive))); vm_compute; reflexivity.
Defined.

(** C8: [w == p] is the identity test [get() == p], [w != p] is its
    negation, and both are [const]: they return a [bool] and leave the
    object as it was. *)
Theorem compare_identity (w : wrapper) (p : ptr) :
  (op_eq w p = true <-> get w = p) /\
  op_neq w p = negb (op_eq w p).
Proof.
  split; [apply ptr_eqb_true|reflexivity].
Qed.

(** C10: a self-swap leaves the object as it was and deallocates
    nothing, and swapping two objects twice in a row gives back the
    starting store with no deallocation call. *)
Theorem swap_involutive (st : store) (log : list event) (i j : nat) (wi wj : wrapper) :
  st !! i = Some wi -> st !! j = Some wj -> wkind wi = wkind wj ->
  step st (OSwap i i) = Some (st, []) /\
  run st log [OSwap i j; OSwap i j] = Some (st, log).
Proof.
  intros Hi Hj Hk. split.
  - simpl. rewrite (swap_eq _ _ _ _ _ Hi Hi eq_refl).
    rewrite decide_True by reflexivity. reflexivity.
  - simpl. rewrite (swap_eq _ _ _ _ _ Hi Hj Hk). simpl.
    destruct (decide (i = j)) as [<-|Hne].
    + rewrite (swap_eq _ _ _ _ _ Hi Hi eq_refl), decide_True by reflexivity.
      simpl. rewrite !app_nil_r. reflexivity.
    + set (st' := <[j := mk_wrapper (wkind wj) (ptr_ wi)]>
                    (<[i := mk_wrapper (wkind wi) (ptr_ wj)]> st)).
      assert (Hi' : st' !! i = Some (mk_wrapper (wkind wi) (ptr_ wj))).
      { unfold st'. rewrite lookup_insert_ne by congruence. apply lookup_insert_eq. }
      assert (Hj' : st' !! j = Some (mk_wrapper (wkind wj) (ptr_ wi))).
      { unfold st'. apply lookup_insert_eq. }
      rewrite (swap_eq _ _ _ _ _ Hi' Hj' Hk), decide_False by exact Hne. simpl.
      rewrite !app_nil_r. do 2 f_equal.
      apply map_eq. intros x. unfold st'.
      destruct (decide (x = j)) as [->|Hxj].
      { rewrite !lookup_insert_eq, Hj. simpl. rewrite wrapper_eta. reflexivity. }
      rewrite !(lookup_insert_ne _ j) by congruence.
      destruct (decide (x = i)) as [->|Hxi].
      { rewrite !lookup_insert_eq, Hi. simpl. rewrite wrapper_eta. reflexivity. }
      rewrite !lookup_insert_ne by congruence. reflexivity.
Qed.

Lemma swap_involutive_witness :
  step (<[0 := mk_wrapper Array (Some 1%positive)]>
          {[1 := mk_wrapper Array None]}) (OSwap 0 0)
    = Some (<[0 := mk_wrapper Array (Some 1%positive)]>
              {[1 := mk_wrapper Array None]}, []) /\
  run (<[0 := mk_wrapper Array (Some 1%positive)]> {[1 := mk_wrapper Array None]})
      [Dealloc Array 7] [OSwap 0 1; OSwap 0 1]
    = Some (<[0 := mk_wrapper Array (Some 1%positive)]> {[1 := mk_wrapper Array None]},
            [Dealloc Array 7]).
Proof.
  apply (swap_involutive _ _ 0 1 (mk_wrapper Array (Some 1%positive))
           (mk_wrapper Array None)); vm_compute; reflexivity.
Defined.

(* ------------------------------------------------------------------ *)
(** ** Further properties of the code *)

(** [reset()] with its default argument [nullptr] makes the same
    deallocation call the destructor would make, and leaves the object
    alive and empty. *)
Theorem reset_default_is_destroy (w : wrapper) :
  reset w None = (mk_wrapper (wkind w) None, destruct w).
Proof.
  unfold reset, destruct, ptr_eqb. destruct w as [k [a|]]; reflexivity.
Qed.

(** Handing the released pointer back with [reset] restores the object
    exactly and deallocates nothing. *)
Theorem release_then_reset (w : wrapper) :
  reset (snd (release w)) (fst (release w)) = (w, []).
Proof. destruct w as [k [a|]]; reflexivity. Qed.

(** A second [release()] returns [nullptr] and changes nothing. *)
Theorem release_twice (w : wrapper) :
  release (snd (release w)) = (None, snd (release w)).
Proof. reflexivity. Qed.

(** Resetting twice to the same pointer is the same as resetting once:
    the second call is a self-reset and deallocates nothing. *)
Theorem reset_idempotent (w : wrapper) (p : ptr) :
  reset (fst (reset w p)) p = (fst (reset w p), []).
Proof.
  unfold reset. destruct (ptr_eqb p (ptr_ w)) eqn:He; simpl.
  - rewrite He. reflexivity.
  - rewrite (proj2 (ptr_eqb_true p p) eq_refl). reflexivity.
Qed.

(** [reset(p)] makes at most one deallocation call, always with the
    object's own primitive, and never deallocates the pointer [p] it is
    adopting (also when [p] is already the owned pointer). *)
Theorem reset_dealloc_shape (w : wrapper) (p : ptr) :
  length (snd (reset w p)) <= 1 /\
  Forall (fun e => exists b, e = Dealloc (wkind w) b) (snd (reset w p)) /\
  (forall a, p = Some a -> dealloc_count a (snd (reset w p)) = 0).
Proof.
  unfold reset. destruct (ptr_eqb p (ptr_ w)) eqn:He; simpl.
  - split; [lia|split; [constructor|reflexivity]].
  - apply ptr_eqb_false in He. destruct w as [k [b|]]; simpl in *.
    + split; [lia|split; [repeat constructor; eauto|]].
      intros a ->. unfold dealloc_count. simpl.
      rewrite filter_cons_False by (simpl; congruence). reflexivity.
    + split; [lia|split; [constructor|reflexivity]].
Qed.

(** On an object that owns [a], the accessors succeed in every build:
    [*w] and [w->m] reach [a], and [w[i]] reaches element [i] of the
    block for every non-negative [i], however large (no upper bound is
    checked). *)
Theorem access_nonempty (ndebug : bool) (w : wrapper) (a : positive) (i : Z) :
  get w = Some a -> (0 <= i)%Z ->
  op_star ndebug w = Ok a /\
  op_arrow ndebug w = Ok (Some a) /\
  member_access ndebug w = Ok a /\
  op_index ndebug w i = Ok (a, i).
Proof.
  unfold get. intros Hw Hi.
  unfold op_star, member_access, op_arrow, op_index, assert_, load, elem, ptr_eqb.
  rewrite Hw. simpl. destruct (Z.leb_spec 0 i); [|lia].
  destruct (Z.ltb_spec i 0); [lia|]. destruct ndebug; repeat split.
Qed.

Lemma access_nonempty_witness :
  get (mk_wrapper Array (Some 5%positive)) = Some 5%positive /\ (0 <= 1000000)%Z /\
  op_index false (mk_wrapper Array (Some 5%positive)) 1000000 = Ok (5%positive, 1000000%Z).
Proof.
  assert (H1 : get (mk_wrapper Array (Some 5%positive)) = Some 5%positive) by reflexivity.
  assert (H2 : (0 <= 1000000)%Z) by lia.
  split; [exact H1|split; [exact H2|]].
  exact (proj2 (proj2 (proj2 (access_nonempty false _ _ _ H1 H2)))).
Defined.

(** [a.swap(b)] and [b.swap(a)] have the same effect, also when they
    are the same object or when the call is not well formed. *)
Theorem swap_comm (st : store) (i j : nat) :
  swap st i j = swap st j i.
Proof.
  destruct (st !! i) as [wi|] eqn:Hi.
  2:{ unfold swap. rewrite Hi. simpl. destruct (st !! j); reflexivity. }
  destruct (st !! j) as [wj|] eqn:Hj.
  2:{ unfold swap. rewrite Hi, Hj. reflexivity. }
  destruct (decide (wkind wi = wkind wj)) as [Hk|Hk].
  - rewrite (swap_eq _ _ _ _ _ Hi Hj Hk), (swap_eq _ _ _ _ _ Hj Hi (eq_sym Hk)).
    destruct (decide (i = j)) as [<-|Hne].
    + rewrite decide_True by reflexivity. reflexivity.
    + rewrite decide_False by congruence. f_equal.
      apply insert_insert_ne. exact (not_eq_sym Hne).
  - unfold swap. rewrite Hi, Hj. simpl.
    rewrite decide_False by exact Hk. rewrite decide_False by congruence.
    reflexivity.
Qed.

Lemma holds_swap (st : store) (i j : nat) (wi wj : wrapper) (x : nat) (a : positive) :
  st !! i = Some wi -> st !! j = Some wj -> i <> j ->
  holds (<[j := mk_wrapper (wkind wj) (ptr_ wi)]>
           (<[i := mk_wrapper (wkind wi) (ptr_ wj)]> st)) x a
  <-> holds st (transpose i j x) a.
Proof.
  intros Hi Hj Hne. rewrite !holds_insert. simpl. unfold transpose.
  destruct (decide (x = i)) as [->|Hxi]; [|destruct (decide (x = j)) as [->|Hxj]].
  - rewrite (holds_at _ _ _ _ Hj). intuition congruence.
  - rewrite (holds_at _ _ _ _ Hi). intuition congruence.
  - intuition congruence.
Qed.

Section KindDiscipline.

(** How each address was allocated. *)
Variable kind_of : positive -> kind.

Definition kinds_inv (st : store) (log : list event) : Prop :=
  (forall x w a, st !! x = Some w -> ptr_ w = Some a -> kind_of a = wkind w) /\
  Forall (fun e => match e with Dealloc k a => kind_of a = k end) log.

Lemma kinds_inv_delete (st : store) (log : list event) (w : wrapper) (x : nat) :
  kinds_inv st log -> st !! x = Some w ->
  Forall (fun e => match e with Dealloc k a => kind_of a = k end)
    (log ++ delete_ (wkind w) (ptr_ w)).
Proof.
  intros [K1 K2] Hx. apply Forall_app. split; [exact K2|].
  destruct (ptr_ w) as [a|] eqn:Hw; simpl; [|constructor].
  constructor; [exact (K1 x w a Hx Hw)|constructor].
Qed.

Lemma kinds_step (st st' : store) (log ev : list event) (o : op) :
  kinds_inv st log -> kind_ok kind_of st o = true -> step st o = Some (st', ev) ->
  kinds_inv st' (log ++ ev).
Proof.
  intros Hk Hok Hstep. destruct Hk as [K1 K2].
  destruct o as [i k p|i p|i j|i|i]; simpl in Hstep.
  - destruct (st !! i) as [w0|] eqn:Hi; [discriminate|].
    injection Hstep as <- <-. rewrite app_nil_r. split; [|exact K2].
    intros x w a Hx Hw. destruct (decide (x = i)) as [->|Hne].
    + rewrite lookup_insert_eq in Hx. injection Hx as <-. simpl in Hw. subst p.
      simpl in Hok. exact (bool_decide_eq_true_1 _ Hok).
    + rewrite lookup_insert_ne in Hx by congruence. exact (K1 x w a Hx Hw).
  - destruct (st !! i) as [w0|] eqn:Hi; [|discriminate]. simpl in Hstep, Hok.
    rewrite Hi in Hok. unfold reset in Hstep.
    destruct (ptr_eqb p (ptr_ w0)); simpl in Hstep.
    + injection Hstep as <- <-. rewrite insert_id by exact Hi.
      rewrite app_nil_r. split; assumption.
    + injection Hstep as <- <-.
      split; [|exact (kinds_inv_delete st log w0 i (conj K1 K2) Hi)].
      intros x w a Hx Hw. destruct (decide (x = i)) as [->|Hne].
      * rewrite lookup_insert_eq in Hx. injection Hx as <-. simpl in Hw |- *.
        subst p. exact (bool_decide_eq_true_1 _ Hok).
      * rewrite lookup_insert_ne in Hx by congruence. exact (K1 x w a Hx Hw).
  - destruct (swap st i j) as [s|] eqn:Hs; [|discriminate]. simpl in Hstep.
    injection Hstep as <- <-. rewrite app_nil_r. split; [|exact K2].
    destruct (swap_some _ _ _ _ Hs) as [wi [wj [Hi [Hj Hkk]]]].
    rewrite (swap_eq _ _ _ _ _ Hi Hj Hkk) in Hs. injection Hs as <-.
    destruct (decide (i = j)) as [<-|Hne]; [exact K1|].
    intros x w a Hx Hw. destruct (decide (x = j)) as [->|Hxj].
    + rewrite lookup_insert_eq in Hx. injection Hx as <-. simpl in *.
      rewrite <- Hkk. exact (K1 i wi a Hi Hw).
    + rewrite lookup_insert_ne in Hx by congruence.
      destruct (decide (x = i)) as [->|Hxi].
      * rewrite lookup_insert_eq in Hx. injection Hx as <-. simpl in *.
        rewrite Hkk. exact (K1 j wj a Hj Hw).
      * rewrite lookup_insert_ne in Hx by congruence. exact (K1 x w a Hx Hw).
  - destruct (st !! i) as [w0|] eqn:Hi; [|discriminate]. simpl in Hstep.
    injection Hstep as <- <-. rewrite app_nil_r. split; [|exact K2].
    intros x w a Hx Hw. destruct (decide (x = i)) as [->|Hne].
    + rewrite lookup_insert_eq in Hx. injection Hx as <-. discriminate.
    + rewrite lookup_insert_ne in Hx by congruence. exact (K1 x w a Hx Hw).
  - destruct (st !! i) as [w0|] eqn:Hi; [|discriminate]. simpl in Hstep.
    injection Hstep as <- <-.
    split; [|exact (kinds_inv_delete st log w0 i (conj K1 K2) Hi)].
    intros x w a Hx Hw. destruct (decide (x = i)) as [->|Hne].
    + rewrite lookup_delete_eq in Hx. discriminate.
    + rewrite lookup_delete_ne in Hx by congruence. exact (K1 x w a Hx Hw).
Qed.

Lemma kinds_run (ops : list op) (st st' : store) (log log' : list event) :
  kinds_inv st log -> kinds_respected kind_of st ops = true ->
  run st log ops = Some (st', log') -> kinds_inv st' log'.
Proof.
  revert st log. induction ops as [|o ops IH]; intros st log Hinv Hok Hrun; simpl in *.
  - injection Hrun as <- <-. exact Hinv.
  - apply andb_prop in Hok. destruct Hok as [Ho Hrest].
    destruct (step st o) as [[s ev]|] eqn:Hs; [|discriminate].
    exact (IH s (log ++ ev) (kinds_step _ _ _ _ _ Hinv Ho Hs) Hrest Hrun).
Qed.

(** Whatever the program does (swaps included), as long as each pointer
    is handed to a wrapper of the class matching its allocation, every
    deallocation call uses the primitive matching that allocation: a
    [new] block is never freed with [delete[]] nor a [new[]] block with
    [delete]. *)
Theorem dealloc_kind_matches (ops : list op) (st : store) (log : list event) :
  kinds_respected kind_of ∅ ops = true ->
  run ∅ [] ops = Some (st, log) ->
  Forall (fun e => match e with Dealloc k a => kind_of a = k end) log.
Proof.
  intros Hok Hrun. refine (proj2 (kinds_run ops ∅ st [] log _ Hok Hrun)).
  split; [|constructor]. intros x w a Hx. rewrite lookup_empty in Hx. discriminate.
Qed.

End KindDiscipline.

Definition demo_kind (a : positive) : kind :=
  if decide (a = 4%positive) then Array else Single.

Lemma dealloc_kind_matches_witness :
  kinds_respected demo_kind ∅ demo_ops = true /\
  run ∅ [] demo_ops = Some (demo_store, demo_log) /\
  Forall (fun e => match e with Dealloc k a => demo_kind a = k end) demo_log.
Proof.
  assert (Hok : kinds_respected demo_kind ∅ demo_ops = true) by (vm_compute; reflexivity).
  assert (Hrun : run ∅ [] demo_ops = Some (demo_store, demo_log))
    by (vm_compute; reflexivity).
  split; [exact Hok|split; [exact Hrun|]].
  exact (dealloc_kind_matches demo_kind demo_ops demo_store demo_log Hok Hrun).
Defined.

(** Every address in [seen] has been deallocated once or is owned by a
    live object, and conversely. *)
Definition accounted (st : store) (log : list event) (seen : list positive) : Prop :=
  forall a, In a seen <-> dealloc_count a log = 1 \/ exists x, holds st x a.

Lemma acc_adopt (st : store) (log : list event) (seen : list positive) (i : nat)
    (k k' : kind) (p old : ptr) :
  inv st log ->
  (forall a, holds st i a <-> old = Some a) ->
  accounted st log seen ->
  accounted (<[i := mk_wrapper k p]> st) (log ++ delete_ k' old) (seen ++ ptr_list p).
Proof.
  intros [I1 [I2 I3]] Hold Hacc a. unfold accounted in Hacc. rewrite in_app_iff, Hacc, dealloc_count_app,
    dealloc_count_delete.
  assert (Hp : In a (ptr_list p) <-> p = Some a).
  { destruct p as [b|]; simpl; split; intros H; intuition congruence. }
  assert (Hnew : (exists x, holds (<[i := mk_wrapper k p]> st) x a) <->
                 p = Some a \/ exists x, x <> i /\ holds st x a).
  { split.
    - intros [x Hx]. rewrite holds_insert in Hx. simpl in Hx. naive_solver.
    - intros [H|[x [Hx Hx']]]; [exists i|exists x]; rewrite holds_insert; simpl; auto. }
  assert (Hprev : (exists x, holds st x a) <->
                  old = Some a \/ exists x, x <> i /\ holds st x a).
  { split.
    - intros [x Hx]. destruct (decide (x = i)) as [->|Hne].
      + left. apply Hold, Hx.
      + right. eauto.
    - intros [H|[x [_ Hx]]]; [exists i; apply Hold, H|eauto]. }
  rewrite Hp, Hnew, Hprev.
  destruct (decide (old = Some a)) as [Ho|Ho].
  - rewrite (I2 i a (proj2 (Hold a) Ho)). simpl. tauto.
  - rewrite Nat.add_0_r. intuition congruence.
Qed.

Lemma acc_drop (st : store) (log : list event) (seen : list positive) (i : nat)
    (k : kind) (old : ptr) :
  inv st log ->
  (forall a, holds st i a <-> old = Some a) ->
  accounted st log seen ->
  accounted (delete i st) (log ++ delete_ k old) seen.
Proof.
  intros [I1 [I2 I3]] Hold Hacc a. unfold accounted in Hacc. rewrite Hacc, dealloc_count_app, dealloc_count_delete.
  assert (Hnew : (exists x, holds (delete i st) x a) <->
                 exists x, x <> i /\ holds st x a).
  { split.
    - intros [x Hx]. rewrite holds_delete in Hx. eauto.
    - intros [x Hx]. exists x. rewrite holds_delete. exact Hx. }
  assert (Hprev : (exists x, holds st x a) <->
                  old = Some a \/ exists x, x <> i /\ holds st x a).
  { split.
    - intros [x Hx]. destruct (decide (x = i)) as [->|Hne].
      + left. apply Hold, Hx.
      + right. eauto.
    - intros [H|[x [_ Hx]]]; [exists i; apply Hold, H|eauto]. }
  rewrite Hnew, Hprev.
  destruct (decide (old = Some a)) as [Ho|Ho].
  - rewrite (I2 i a (proj2 (Hold a) Ho)). simpl. tauto.
  - rewrite Nat.add_0_r. intuition congruence.
Qed.

Lemma acc_step (st st' : store) (log ev : list event) (seen : list positive) (o : op) :
  inv st log -> adopts_ok st log o = true -> is_release o = false ->
  accounted st log seen -> step st o = Some (st', ev) ->
  accounted st' (log ++ ev) (seen ++ op_ptrs o).
Proof.
  intros Hinv Hok Hrel Hacc Hstep. unfold accounted in *.
  destruct o as [i k p|i p|i j|i|i]; simpl in Hok, Hstep, Hrel |- *.
  - destruct (st !! i) as [w|] eqn:Hi; [discriminate|].
    injection Hstep as <- <-.
    replace (log ++ []) with (log ++ delete_ k None) by reflexivity.
    apply acc_adopt; [exact Hinv| |exact Hacc].
    intros a. split; [intros [w [Hw _]]; congruence|discriminate].
  - destruct (st !! i) as [w|] eqn:Hi; [|discriminate]. simpl in Hstep.
    unfold reset in Hstep. destruct (ptr_eqb p (ptr_ w)) eqn:Heq; simpl in Hstep.
    + injection Hstep as <- <-. rewrite insert_id by exact Hi.
      apply ptr_eqb_true in Heq. subst p. rewrite app_nil_r. intros a.
      rewrite in_app_iff, Hacc. split; [|tauto].
      intros [H|H]; [exact H|]. right. exists i.
      destruct (ptr_ w) as [b|] eqn:Hw; simpl in H; [|contradiction].
      destruct H as [<-|[]]. apply (holds_at _ _ _ _ Hi), Hw.
    + injection Hstep as <- <-.
      apply acc_adopt; [exact Hinv| |exact Hacc].
      intros a. apply holds_at, Hi.
  - destruct (swap st i j) as [s|] eqn:Hs; [|discriminate]. simpl in Hstep.
    injection Hstep as <- <-. rewrite !app_nil_r.
    destruct (swap_some _ _ _ _ Hs) as [wi [wj [Hi [Hj Hk]]]].
    rewrite (swap_eq _ _ _ _ _ Hi Hj Hk) in Hs. injection Hs as <-.
    destruct (decide (i = j)) as [<-|Hne]; [exact Hacc|].
    intros a. rewrite Hacc. apply or_iff_compat_l. split.
    + intros [x Hx]. exists (transpose i j x).
      rewrite (holds_swap _ _ _ _ _ _ _ Hi Hj Hne). unfold transpose.
      repeat case_decide; subst; try congruence; exact Hx.
    + intros [x Hx]. rewrite (holds_swap _ _ _ _ _ _ _ Hi Hj Hne) in Hx. eauto.
  - discriminate.
  - destruct (st !! i) as [w|] eqn:Hi; [|discriminate]. simpl in Hstep.
    injection Hstep as <- <-. rewrite app_nil_r.
    apply acc_drop; [exact Hinv| |exact Hacc].
    intros a. apply holds_at, Hi.
Qed.

Lemma acc_run (ops : list op) (st st' : store) (log log' : list event)
    (seen : list positive) :
  inv st log -> accounted st log seen ->
  contract_ok st log ops = true -> forallb (fun o => negb (is_release o)) ops = true ->
  run st log ops = Some (st', log') ->
  accounted st' log' (seen ++ flat_map op_ptrs ops).
Proof.
  revert st log seen. induction ops as [|o ops IH];
    intros st log seen Hinv Hacc Hok Hrel Hrun; simpl in *.
  - injection Hrun as <- <-. rewrite app_nil_r. exact Hacc.
  - apply andb_prop in Hok. destruct Hok as [Ho Hrest].
    apply andb_prop in Hrel. destruct Hrel as [Hr Hrel].
    apply negb_true_iff in Hr.
    destruct (step st o) as [[s ev]|] eqn:Hs; [|discriminate].
    rewrite app_assoc.
    exact (IH s (log ++ ev) (seen ++ op_ptrs o) (step_inv _ _ _ _ _ Hinv Ho Hs)
             (acc_step _ _ _ _ _ _ Hinv Ho Hr Hacc Hs) Hrest Hrel Hrun).
Qed.

(** No leak and no double free: in a program that respects the
    ownership contract, never calls [release()], and has destroyed every
    wrapper by its end, each address handed to a constructor or to
    [reset] is deallocated exactly once, and no other address is
    deallocated. *)
Theorem scoped_no_leak (ops : list op) (log : list event) :
  contract_ok ∅ [] ops = true ->
  forallb (fun o => negb (is_release o)) ops = true ->
  run ∅ [] ops = Some (∅, log) ->
  forall a, dealloc_count a log = if decide (a ∈ flat_map op_ptrs ops) then 1 else 0.
Proof.
  intros Hok Hrel Hrun a.
  assert (Hacc0 : accounted ∅ [] []).
  { intros b. simpl. split; [contradiction|].
    intros [H|[x [w [Hx _]]]]; [discriminate|rewrite lookup_empty in Hx; discriminate]. }
  pose proof (acc_run ops ∅ ∅ [] log [] inv_empty Hacc0 Hok Hrel Hrun a) as Hacc.
  destruct (run_inv _ _ _ _ _ inv_empty Hok Hrun) as [_ [_ I3]].
  simpl in Hacc.
  assert (Hnone : ~ exists x, holds ∅ x a).
  { intros [x [w [Hx _]]]. rewrite lookup_empty in Hx. discriminate. }
  specialize (I3 a). case_decide as Hin; rewrite list_elem_of_In in Hin.
  - apply Hacc in Hin. destruct Hin as [H|H]; [exact H|contradiction].
  - destruct (dealloc_count a log) as [|[|n]] eqn:Hc; [reflexivity| |lia].
    exfalso. apply Hin, Hacc. left. reflexivity.
Qed.

Definition scoped_demo_ops : list op :=
  [OConstruct 0 Single (Some 1%positive); OConstruct 1 Single None;
   OReset 1 (Some 2%positive); OSwap 0 1; OReset 0 (Some 3%positive);
   OConstruct 2 Array (Some 4%positive); OReset 2 (Some 4%positive);
   ODestruct 0; ODestruct 2; ODestruct 1].

Lemma scoped_no_leak_witness :
  contract_ok ∅ [] scoped_demo_ops = true /\
  forallb (fun o => negb (is_release o)) scoped_demo_ops = true /\
  run ∅ [] scoped_demo_ops =
    Some (∅, [Dealloc Single 2; Dealloc Single 3; Dealloc Array 4; Dealloc Single 1]) /\
  dealloc_count 3
    [Dealloc Single 2; Dealloc Single 3; Dealloc Array 4; Dealloc Single 1] = 1.
Proof.
  assert (H1 : contract_ok ∅ [] scoped_demo_ops = true) by (vm_compute; reflexivity).
  assert (H2 : forallb (fun o => negb (is_release o)) scoped_demo_ops = true)
    by reflexivity.
  assert (H3 : run ∅ [] scoped_demo_ops =
    Some (∅, [Dealloc Single 2; Dealloc Single 3; Dealloc Array 4; Dealloc Single 1]))
    by (vm_compute; reflexivity).
  split; [exact H1|split; [exact H2|split; [exact H3|]]].
  exact (scoped_no_leak _ _ H1 H2 H3 3%positive).
Defined.
